(** * The play registry of soccer/gameplay2/play_registry.py

    A shallow embedding of [PlayRegistry], its two node classes [Category]
    and [Node], and of the Python operations its methods rely on (attribute
    lookup, subscription, item deletion, calls, generators, exceptions). *)

From Stdlib Require Import Ascii.
From stdpp Require Import base option list strings.

Local Open Scope string_scope.
Local Open Scope list_scope.

(** ** Data model *)

(** A play class is a Python class object: it has an identity and a
    [__name__].  Classes compare by identity under [==]. *)
Record PlayClass := mkPlayClass { cls_id : nat; __name__ : string }.

Definition PlayClass_eq (a b : PlayClass) : bool := Nat.eqb (cls_id a) (cls_id b).

(** [PlayRegistry.Node]: the fields set by [Node.__init__]. *)
Record Node := mkNode {
  _module_name : string;
  _play_class : PlayClass;
  _enabled : bool
}.

#[local] Set Warnings "-register-all".

(** [PlayRegistry.Category]: a name and the list of its children, each a
    [Node] ([inl]) or a [Category] ([inr]).  The [_parent] back reference is
    not stored: [appendChild] is the only place that attaches a child and it
    sets [child.parent = self], so the parent of a child is the object that
    lists it. *)
Inductive Category : Type := mkCategory {
  _name : string;
  _children : list (Node + Category)
}.

Abbreviation Child := (Node + Category)%type.

(** [Node.__init__(module_name, play_class)] *)
Definition Node___init__ (module_name : string) (play_class : PlayClass) : Node :=
  {| _module_name := module_name; _play_class := play_class; _enabled := true |}.

(** [Category.__init__(parent, name)] *)
Definition Category___init__ (name : string) : Category :=
  {| _name := name; _children := [] |}.

(** [child.name]: the [name] property of either class. *)
Definition name (child : Child) : string :=
  match child with
  | inl node => __name__ (_play_class node)
  | inr category => _name category
  end.

(** [isinstance(child, PlayRegistry.Node)] *)
Definition isinstance_Node (child : Child) : bool :=
  match child with inl _ => true | inr _ => false end.

(** Induction over a category and, nested, over its children. *)
Section CategoryInd.
Variable P : Category -> Prop.
Let Q (child : Child) : Prop :=
  match child with inl _ => True | inr c => P c end.
Hypothesis step : forall nm children,
  Forall Q children -> P (mkCategory nm children).

Fixpoint Category_nested_ind (c : Category) : P c :=
  match c with
  | mkCategory nm children =>
    step nm children
      ((fix go (l : list Child) : Forall Q l :=
          match l with
          | [] => List.Forall_nil Q
          | child :: l' =>
            List.Forall_cons Q child l'
              (match child return Q child with
               | inl _ => I
               | inr sub => Category_nested_ind sub
               end)
              (go l')
          end) children)
  end.
End CategoryInd.

(** ** Object references

    A variable of the program holds [None] or a reference to an object of
    the tree.  A tree object is identified by the rows leading to it from the
    root: [[]] is the root category, [p ++ [i]] the [i]-th child of the
    category at [p]. *)
Inductive ref := RNone | RObj (p : list nat).

Inductive object := ONone | ONode (n : Node) | OCategory (c : Category).

Definition object_of (child : Child) : object :=
  match child with
  | inl n => ONode n
  | inr c => OCategory c
  end.

Fixpoint deref (p : list nat) (child : Child) : option Child :=
  match p with
  | [] => Some child
  | i :: p' =>
    match child with
    | inr c =>
      match _children c !! i with
      | Some sub => deref p' sub
      | None => None
      end
    | inl _ => None
    end
  end.

(** In-place update of the object at [p]; the rest of the tree is shared. *)
Fixpoint modify (p : list nat) (f : Child -> Child) (child : Child) : Child :=
  match p with
  | [] => f child
  | i :: p' =>
    match child with
    | inr c => inr (mkCategory (_name c) (alter (modify p' f) i (_children c)))
    | inl n => inl n
    end
  end.

Definition modify_root (p : list nat) (f : Child -> Child) (root : Category) : Category :=
  match modify p f (inr root) with
  | inr c => c
  | inl _ => root
  end.

(** ** The registry and its signals *)

Record QModelIndex := mkIndex {
  isValid : bool;
  row : nat;
  column : nat;
  internalPointer : ref
}.

(** The state of a [PlayRegistry]: the tree it owns and the
    [dataChanged] signals it has emitted so far, oldest first. *)
Record PlayRegistry := mkRegistry {
  _root : Category;
  dataChanged : list (QModelIndex * QModelIndex)
}.

(** [PlayRegistry.__init__] *)
Definition PlayRegistry___init__ : PlayRegistry :=
  {| _root := Category___init__ ""; dataChanged := [] |}.

(** ** Exceptions and the monad of methods *)

Inductive exn := KeyError | TypeError | AttributeError | IndexError | AssertionError.

Inductive outcome (A : Type) : Type :=
| Returned (a : A)
| Raised (e : exn).
Arguments Returned {A} a.
Arguments Raised {A} e.

(** A method runs on the registry and ends by returning or by raising, in
    the state its mutations have reached.  [None] is kept for a run this
    model does not cover: a reference that addresses no object of the tree,
    or a traversal out of fuel. *)
Definition M (A : Type) : Type := PlayRegistry -> option (outcome A * PlayRegistry).

Definition ret {A} (a : A) : M A := fun st => Some (Returned a, st).
Definition raise {A} (e : exn) : M A := fun st => Some (Raised e, st).
Definition unmodelled {A} : M A := fun _ => None.

Definition bind {A B} (m : M A) (k : A -> M B) : M B :=
  fun st =>
    match m st with
    | Some (Returned a, st') => k a st'
    | Some (Raised e, st') => Some (Raised e, st')
    | None => None
    end.

Notation "'let!' x ':=' m 'in' k" := (bind m (fun x => k))
  (at level 10, x pattern, m at level 100, k at level 200).
Notation "m ';;' k" := (bind m (fun _ => k))
  (at level 100, k at level 200, right associativity).

(** [try: body  except KeyError: handler] *)
Definition try_except_KeyError {A} (body handler : M A) : M A :=
  fun st =>
    match body st with
    | Some (Raised KeyError, st') => handler st'
    | r => r
    end.

(** [for x in l: s = body(x, s)] *)
Fixpoint for_each {A S} (l : list A) (body : A -> S -> M S) (s : S) : M S :=
  match l with
  | [] => ret s
  | x :: l' => let! s' := body x s in for_each l' body s'
  end.

Definition get_root : M Category := fun st => Some (Returned (_root st), st).

Definition update_root (f : Category -> Category) : M unit :=
  fun st => Some (Returned tt, {| _root := f (_root st); dataChanged := dataChanged st |}).

(** [self.dataChanged.emit(topLeft, bottomRight)] *)
Definition emit_dataChanged (a b : QModelIndex) : M unit :=
  fun st => Some (Returned tt, {| _root := _root st; dataChanged := dataChanged st ++ [(a, b)] |}).

(** The object a reference denotes. *)
Definition load (r : ref) : M object :=
  match r with
  | RNone => ret ONone
  | RObj p =>
    let! root := get_root in
    match deref p (inr root) with
    | Some child => ret (object_of child)
    | None => unmodelled
    end
  end.

(** ** Classes and the operations that dispatch on them *)

Inductive pyclass := NoneType | ClsNode | ClsCategory | ClsList.

Definition class_of (o : object) : pyclass :=
  match o with
  | ONone => NoneType
  | ONode _ => ClsNode
  | OCategory _ => ClsCategory
  end.

(** The names each class body binds, in source order.  For the two built-in
    classes only the special methods this module could reach are listed. *)
Definition class_dict (k : pyclass) : list string :=
  match k with
  | ClsCategory =>
    ["__init__"; "name"; "__del__"; "appendChild"; "__getitem__";
     "has_child_with_name"; "parent"; "children"; "row"]
  | ClsNode =>
    ["__init__"; "parent"; "name"; "module_name"; "play_class"; "enabled"; "__str__"]
  | NoneType => ["__bool__"; "__repr__"]
  | ClsList =>
    ["__len__"; "__iter__"; "__contains__"; "__getitem__"; "__setitem__";
     "__delitem__"; "__eq__"]
  end.

Definition defines (k : pyclass) (attr : string) : bool :=
  existsb (String.eqb attr) (class_dict k).

(** [s == child] for a [str] and a tree object.  [str.__eq__] answers
    [NotImplemented] for an operand that is not a string, so the reflected
    [__eq__] of the class of [child] decides; a class that does not define
    it inherits the comparison by identity, and a string is never the same
    object as a [Node] or a [Category]. *)
Definition str_eq_child (s : string) (child : Child) : M bool :=
  if defines (class_of (object_of child)) "__eq__" then unmodelled
  else ret false.

(** [s in children]: the list compares [s] with each element in turn. *)
Fixpoint str_in (s : string) (children : list Child) : M bool :=
  match children with
  | [] => ret false
  | child :: rest =>
    let! equal := str_eq_child s child in
    if equal then ret true else str_in s rest
  end.

(** [l[-k]] for [k >= 1]: [IndexError] when [l] is shorter than [k]. *)
Definition neg_index {A} (l : list A) (k : nat) : M A :=
  if Nat.ltb (length l) k then raise IndexError
  else match l !! (length l - k) with
       | Some x => ret x
       | None => raise IndexError
       end.

(** [l[i]] for [i >= 0] *)
Definition index {A} (l : list A) (i : nat) : M A :=
  match l !! i with
  | Some x => ret x
  | None => raise IndexError
  end.

(** [l[:-1]] *)
Definition all_but_last {A} (l : list A) : list A := take (length l - 1) l.

(** ** [Category] *)

(** [Category.__getitem__(name)]: the first child of that name, with its
    row, or [None]. *)
Fixpoint first_named (nm : string) (children : list Child) (i : nat) : option (nat * Child) :=
  match children with
  | [] => None
  | child :: rest =>
    if String.eqb (name child) nm then Some (i, child)
    else first_named nm rest (S i)
  end.

Definition Category___getitem__ (self : Category) (nm : string) : option (nat * Child) :=
  first_named nm (_children self) 0.

(** [Category.has_child_with_name(name)]: [self[name] != None].  Neither
    class defines [__eq__] or [__ne__], so an object differs from [None]. *)
Definition has_child_with_name (self : Category) (nm : string) : bool :=
  match Category___getitem__ self nm with
  | Some _ => true
  | None => false
  end.

(** [Category.__del__(name)], as a method called by name: it removes the
    first child called [name] or raises [KeyError]. *)
Definition Category___del__ (self : Category) (nm : string) : outcome Category :=
  match Category___getitem__ self nm with
  | Some (idx, _) => Returned (mkCategory (_name self) (delete idx (_children self)))
  | None => Raised KeyError
  end.

(** [Category.appendChild(child)] on the category object itself. *)
Definition appendChild (child : Child) (self : Child) : Child :=
  match self with
  | inr c => inr (mkCategory (_name c) (_children c ++ [child]))
  | inl n => inl n
  end.

(** [r.children]: only [Category] has that property. *)
Definition getattr_children (r : ref) : M (list Child) :=
  let! o := load r in
  match o with
  | OCategory c => ret (_children c)
  | ONode _ | ONone => raise AttributeError
  end.

(** [r.appendChild(child)] *)
Definition call_appendChild (r : ref) (child : Child) : M unit :=
  let! o := load r in
  match o, r with
  | OCategory _, RObj p => update_root (modify_root p (appendChild child))
  | _, _ => raise AttributeError
  end.

(** [r[key]]: the class of [r] must define [__getitem__]. *)
Definition getitem (r : ref) (key : string) : M ref :=
  let! o := load r in
  if defines (class_of o) "__getitem__" then
    match o, r with
    | OCategory c, RObj p =>
      match Category___getitem__ c key with
      | Some (i, _) => ret (RObj (p ++ [i]))
      | None => ret RNone
      end
    | _, _ => unmodelled
    end
  else raise TypeError.

(** [del r[key]]: the class of [r] must define [__delitem__].  No class of
    this module does ([Category] spells its removal method [__del__], the
    finaliser hook), so there is no body to run. *)
Definition delitem (r : ref) (key : string) : M unit :=
  let! o := load r in
  if defines (class_of o) "__delitem__" then unmodelled
  else raise TypeError.

(** ** [PlayRegistry.insert] *)

(** The body of the loop over [module_path[:-1]]; it gives the next value
    of [category]. *)
Definition insert_body (module : string) (category : ref) : M ref :=
  let! children := getattr_children category in
  let! present := str_in module children in
  (if negb present
   then call_appendChild category (inr (Category___init__ module))
   else ret tt) ;;
  getitem category module.

Definition insert (module_path : list string) (play_class : PlayClass) : M unit :=
  let category := RObj [] in
  let! category := for_each (all_but_last module_path) insert_body category in
  let! module_name := neg_index module_path 1 in
  let playNode := Node___init__ module_name play_class in
  call_appendChild category (inl playNode).

(** ** [PlayRegistry.delete] *)

(** The body of the first loop: [catStack.append(catStack[-1][module])]. *)
Definition delete_walk (module : string) (catStack : list ref) : M (list ref) :=
  let! top := neg_index catStack 1 in
  let! sub := getitem top module in
  ret (catStack ++ [sub]).

Definition delete (module_path : list string) (play_class : PlayClass) : M unit :=
  let catStack := [RObj []] in
  try_except_KeyError
    (let! catStack := for_each (all_but_last module_path) delete_walk catStack in
     let! top := neg_index catStack 1 in
     delitem top (__name__ play_class) ;;
     let catStack := reverse catStack in
     for_each (imap (fun idx category => (idx, category)) (all_but_last catStack))
       (fun '(idx, category) _ =>
          let! children := getattr_children category in
          if Nat.eqb (length children) 0 then
            let! parent := index catStack (idx + 1) in
            let! key := neg_index module_path (2 + idx) in
            delitem parent key
          else ret tt) tt)
    (raise KeyError).

(** ** Iteration

    [__iter__] returns a generator.  Run to its end, a generator has yielded
    some nodes and then stopped: exhausted, or with an exception raised by
    its body. *)

Inductive stop := StopIteration | Uncaught (e : exn) | Unmodelled.

Record trace := mkTrace { yielded : list Node; ending : stop }.

(** [yield from t] followed by [rest] *)
Definition then_trace (t : trace) (rest : trace) : trace :=
  match ending t with
  | StopIteration => {| yielded := yielded t ++ yielded rest; ending := ending rest |}
  | _ => t
  end.

(** [l()] for a list object [l]: the class must define [__call__]. *)
Definition call_list {A} (l : list A) : option (outcome (list A)) :=
  if defines ClsList "__call__" then None else Some (Raised TypeError).

Fixpoint height (category : Category) : nat :=
  S (foldr (fun child h =>
              match child with
              | inl _ => h
              | inr sub => Nat.max (height sub) h
              end) 0 (_children category)).

(** The generator [_recursive_iter(category)], run to its end.  [fuel]
    bounds the depth of the nested generators. *)
Fixpoint _recursive_iter (fuel : nat) (category : Category) : trace :=
  match fuel with
  | 0 => {| yielded := []; ending := Unmodelled |}
  | S fuel' =>
    match call_list (_children category) with
    | None => {| yielded := []; ending := Unmodelled |}
    | Some (Raised e) => {| yielded := []; ending := Uncaught e |}
    | Some (Returned children) =>
      foldr (fun child rest =>
               then_trace
                 (match child with
                  | inl node => {| yielded := [node]; ending := StopIteration |}
                  | inr sub => _recursive_iter fuel' sub
                  end)
                 rest)
            {| yielded := []; ending := StopIteration |} children
    end
  end.

(** [PlayRegistry.__iter__], consumed to its end. *)
Definition PlayRegistry___iter__ (self : PlayRegistry) : trace :=
  _recursive_iter (height (_root self)) (_root self).

(** [PlayRegistry.get_enabled_plays]: the comprehension consumes the whole
    generator; an exception of the generator leaves through it. *)
Definition get_enabled_plays : M (list PlayClass) :=
  fun self =>
    let t := PlayRegistry___iter__ self in
    match ending t with
    | StopIteration =>
      ret (map _play_class (List.filter _enabled (yielded t))) self
    | Uncaught e => raise e self
    | Unmodelled => None
    end.

(** [PlayRegistry.__contains__]: the loop returns at the first node whose
    play class is the argument, before the generator goes on. *)
Definition PlayRegistry___contains__ (play_class : PlayClass) : M bool :=
  fun self =>
    let t := PlayRegistry___iter__ self in
    if existsb (fun node => PlayClass_eq (_play_class node) play_class) (yielded t)
    then ret true self
    else match ending t with
         | StopIteration => ret false self
         | Uncaught e => raise e self
         | Unmodelled => None
         end.

(** ** Rendering *)

Definition newline : string := String "010"%char "".

(** [s * n] *)
Fixpoint str_mul (s : string) (n : nat) : string :=
  match n with
  | 0 => ""
  | S n' => s +:+ str_mul s n'
  end.

(** [s[:-1]] *)
Fixpoint drop_last (s : string) : string :=
  match s with
  | "" => ""
  | String c "" => ""
  | String c rest => String c (drop_last rest)
  end.

(** [Node.__str__] *)
Definition Node___str__ (self : Node) : string :=
  (__name__ (_play_class self) +:+ " ")
  +:+ (if _enabled self then "[ENABLED]" else "[DISABLED]").

(** The [for] loop of [_cat_str(category, indent)], carrying [desc];
    [_cat_str] stands for the recursive call. *)
Section CatStrLoop.
Variable _cat_str : Category -> nat -> string.
Variable indent : nat.

Fixpoint _cat_str_loop (children : list Child) (desc : string) : string :=
  match children with
  | [] => desc
  | child :: rest =>
    let desc :=
      match child with
      | inl node =>
        let desc := desc +:+ str_mul "    " indent in
        desc +:+ Node___str__ node
      | inr sub =>
        let desc := desc +:+ (((str_mul "    " indent +:+ _name sub) +:+ ":") +:+ newline) in
        desc +:+ _cat_str sub (indent + 1)
      end in
    _cat_str_loop rest (desc +:+ newline)
  end.
End CatStrLoop.

Fixpoint _cat_str (category : Category) (indent : nat) : string :=
  drop_last (_cat_str_loop _cat_str indent (_children category) "").

(** [PlayRegistry.__str__] *)
Definition PlayRegistry___str__ (self : PlayRegistry) : string :=
  (("PlayRegistry:" +:+ newline) +:+ ("-------------" +:+ newline))
  +:+ _cat_str (_root self) 0.

(** ** The item model: [setData] *)

(** [Qt.ItemDataRole] values *)
Definition DisplayRole : nat := 0.
Definition CheckStateRole : nat := 10.

(** [playNode.enabled = value] *)
Definition set_enabled (value : bool) (o : Child) : Child :=
  match o with
  | inl n => inl {| _module_name := _module_name n; _play_class := _play_class n;
                    _enabled := value |}
  | inr c => inr c
  end.

Definition setData {V} (index : QModelIndex) (value : V) (role : nat) : M bool :=
  if Nat.eqb role CheckStateRole then
    if isValid index then
      let playNode := internalPointer index in
      let! o := load playNode in
      match o, playNode with
      | ONode n, RObj p =>
        update_root (modify_root p (set_enabled (negb (_enabled n)))) ;;
        emit_dataChanged index index ;;
        ret true
      | _, _ => raise AssertionError
      end
    else ret false
  else ret false.

(** ** The item model: queries *)

(** What a query hands to the view: [None], a string or a boolean. *)
Inductive variant := VNone | VStr (s : string) | VBool (b : bool).

(** [self.createIndex(row, column, ptr)]: Qt builds a valid index of this
    model from the three values. *)
Definition createIndex (r c : nat) (ptr : ref) : QModelIndex :=
  {| isValid := true; row := r; column := c; internalPointer := ptr |}.

(** [r.name]: both classes have the property, [None] has not. *)
Definition getattr_name (r : ref) : M string :=
  let! o := load r in
  match o with
  | ONode n => ret (__name__ (_play_class n))
  | OCategory c => ret (_name c)
  | ONone => raise AttributeError
  end.

(** [r.parent]: [appendChild] sets it to the category that lists the
    object, and the root is built with [None]. *)
Definition getattr_parent (r : ref) : M ref :=
  let! o := load r in
  match o, r with
  | ONone, _ => raise AttributeError
  | _, RObj [] => ret RNone
  | _, RObj p => ret (RObj (removelast p))
  | _, RNone => unmodelled
  end.

(** [Category.row]: [0] without a parent, else the position of [self] in
    [self.parent.children].  [list.index] finds the first element that is
    [self] (no class defines [__eq__]), which is the row [self] is addressed
    by. *)
Definition Category_row (r : ref) : M nat :=
  let! parent := getattr_parent r in
  match parent, r with
  | RNone, _ => ret 0
  | RObj _, RObj p => ret (default 0 (last p))
  | RObj _, RNone => unmodelled
  end.

(** [PlayRegistry.data(index, role)] *)
Definition data (index : QModelIndex) (role : nat) : M variant :=
  if negb (isValid index) then ret VNone
  else
    let node := internalPointer index in
    if Nat.eqb role DisplayRole && Nat.eqb (column index) 0 then
      let! s := getattr_name node in
      ret (VStr s)
    else if Nat.eqb role CheckStateRole then
      let! o := load node in
      match o with
      | ONode n => ret (VBool (_enabled n))
      | OCategory _ | ONone => ret VNone
      end
    else ret VNone.

(** [PlayRegistry.rowCount(parent)] *)
Definition rowCount (parent : QModelIndex) : M nat :=
  if negb (isValid parent) then
    let! children := getattr_children (RObj []) in
    ret (length children)
  else
    let node := internalPointer parent in
    let! o := load node in
    match o with
    | ONode _ => ret 0
    | OCategory _ | ONone =>
      let! children := getattr_children node in
      ret (length children)
    end.

(** [PlayRegistry.index(row, column, parent)], for the rows [>= 0] a view
    asks for.  The pointer of the new index is the child object
    [children[row]]. *)
Definition PlayRegistry_index (r c : nat) (parent : QModelIndex) : M QModelIndex :=
  if negb (isValid parent) then
    let! children := getattr_children (RObj []) in
    let! _ := index children r in
    ret (createIndex r c (RObj [r]))
  else
    let parentNode := internalPointer parent in
    let! children := getattr_children parentNode in
    let! _ := index children r in
    match parentNode with
    | RObj p => ret (createIndex r c (RObj (p ++ [r])))
    | RNone => unmodelled
    end.

(** [PlayRegistry.parent(index)].  The module imports [QtCore] and [QtGui]
    only, so the name [QModelIndex] of the first branch is bound nowhere:
    evaluating it raises [NameError] ([inl]).  The other branch is a method
    run like the rest; it returns [None] or an index. *)
Inductive name_error := NameError (global : string).

Definition PlayRegistry_parent (index : QModelIndex) : name_error + M (option QModelIndex) :=
  if negb (isValid index) then inl (NameError "QModelIndex")
  else
    inr (let node := internalPointer index in
         match node with
         | RNone => ret None
         | RObj _ =>
           let! node_parent := getattr_parent node in
           let! parentRow :=
             match node_parent with
             | RNone => ret 0
             | RObj _ => Category_row node_parent
             end in
           ret (Some (createIndex parentRow 0 node_parent))
         end).

(** ** Notions used in the statements *)

(** A function that maps categories to categories keeps the root a
    category, so [modify_root] is [modify] at the root. *)
Definition keeps_class (f : Child -> Child) : Prop :=
  forall o, isinstance_Node (f o) = isinstance_Node o.

(** The [Node] objects a tree owns, in child order. *)
Fixpoint nodes (category : Category) : list Node :=
  flat_map (fun child =>
              match child with
              | inl node => [node]
              | inr sub => nodes sub
              end) (_children category).

Definition nodes_of (child : Child) : list Node :=
  match child with
  | inl node => [node]
  | inr sub => nodes sub
  end.

(** A reference is live when it is [None] or addresses an object. *)
Definition live (r : ref) (self : PlayRegistry) : Prop :=
  match r with
  | RNone => True
  | RObj p => is_Some (deref p (inr (_root self)))
  end.

Definition top_live (catStack : list ref) (self : PlayRegistry) : Prop :=
  exists r, last catStack = Some r /\ live r self.

(** The dump as the specification words it: the entries of the children,
    separated by newlines; a leaf's entry is its indented string form, a
    sub-category's entry is its indented name and a colon on one line,
    followed by the dump of its own children one level deeper. *)
Fixpoint join (sep : string) (l : list string) : string :=
  match l with
  | [] => ""
  | [x] => x
  | x :: rest => x +:+ sep +:+ join sep rest
  end.

Definition leaf_entry (depth : nat) (leaf : Node) : string :=
  str_mul "    " depth +:+ __name__ (_play_class leaf)
  +:+ (if _enabled leaf then " [ENABLED]" else " [DISABLED]").

Fixpoint dump (depth : nat) (category : Category) : string :=
  join newline
    (map (fun child =>
            match child with
            | inl leaf => leaf_entry depth leaf
            | inr sub =>
              str_mul "    " depth +:+ _name sub +:+ ":" +:+ newline +:+ dump (S depth) sub
            end) (_children category)).

(** An entry of [dump], by the kind of child. *)
Definition entry (depth : nat) (child : Child) : string :=
  match child with
  | inl leaf => leaf_entry depth leaf
  | inr sub => str_mul "    " depth +:+ _name sub +:+ ":" +:+ newline +:+ dump (S depth) sub
  end.

(** The entries, each followed by a newline, as the loop accumulates them. *)
Fixpoint lines (l : list string) : string :=
  match l with
  | [] => ""
  | x :: rest => (x +:+ newline) +:+ lines rest
  end.

(** The object a parent index stands for in [rowCount] and [index]: the
    root for an invalid index, else the object it points to. *)
Definition addressed (parent : QModelIndex) : ref :=
  if isValid parent then internalPointer parent else RObj [].

(** A tree with its [enabled] flags forgotten (all set as [Node.__init__]
    sets them). *)
Fixpoint erase (category : Category) : Category :=
  mkCategory (_name category)
    (map (fun child =>
            match child with
            | inl node => inl (Node___init__ (_module_name node) (_play_class node))
            | inr sub => inr (erase sub)
            end) (_children category)).

Definition erase_child (child : Child) : Child :=
  match child with
  | inl node => inl (Node___init__ (_module_name node) (_play_class node))
  | inr sub => inr (erase sub)
  end.

(** A reference below the root. *)
Definition deep (r : ref) : Prop :=
  match r with
  | RNone => True
  | RObj p => p <> []
  end.

(** ** Example registries *)

Definition RunAround : PlayClass := mkPlayClass 1 "RunAround".
Definition PassDrill : PlayClass := mkPlayClass 2 "PassDrill".
Definition Kick : PlayClass := mkPlayClass 3 "Kick".

(** The registry after [insert(["solo", "Kick"], Kick)] on a new one. *)
Definition solo_registry : PlayRegistry :=
  {| _root := mkCategory "" [inr (mkCategory "solo" [inl (Node___init__ "Kick" Kick)])];
     dataChanged := [] |}.

(** The index of the node of [Kick] in [solo_registry], and of its category. *)
Definition kick_index : QModelIndex := mkIndex true 0 0 (RObj [0; 0]).
Definition solo_index : QModelIndex := mkIndex true 0 0 (RObj [0]).

(** A registry whose root lists the node of [Kick] itself, as after
    [insert(["kick"], Kick)]. *)
Definition kick_registry : PlayRegistry :=
  {| _root := mkCategory "" [inl (Node___init__ "kick" Kick)]; dataChanged := [] |}.

(** The invalid index a view passes for the root. *)
Definition invalid_index : QModelIndex := mkIndex false 0 0 RNone.

(** * Properties *)

(** ** The monad *)

Lemma bind_returned {A B} (m : M A) (k : A -> M B) st a st' :
  m st = Some (Returned a, st') -> bind m k st = k a st'.
Proof. intros H. unfold bind. now rewrite H. Qed.

Lemma bind_raised {A B} (m : M A) (k : A -> M B) st e st' :
  m st = Some (Raised e, st') -> bind m k st = Some (Raised e, st').
Proof. intros H. unfold bind. now rewrite H. Qed.

(** [run E] rewrites the goal with the run [E] of the first computation
    of a [bind]. *)
Ltac run E :=
  lazymatch type of E with
  | ?m ?st = Some (Returned ?a, ?st') =>
    lazymatch goal with
    | |- context [bind m ?k st] => rewrite (bind_returned m k st a st' E); cbv beta
    end
  | ?m ?st = Some (Raised ?e, ?st') =>
    lazymatch goal with
    | |- context [bind m ?k st] => rewrite (bind_raised m k st e st' E)
    end
  end.

(** ** Class dictionaries *)

Lemma no_class_defines___delitem__ o : defines (class_of o) "__delitem__" = false.
Proof. destruct o; reflexivity. Qed.

Lemma list_defines_no___call__ : defines ClsList "__call__" = false.
Proof. reflexivity. Qed.

(** A module name is never [in] a list of children. *)
Lemma str_in_children_false s children self :
  str_in s children self = Some (Returned false, self).
Proof.
  induction children as [|child rest IH]; simpl; [reflexivity|].
  assert (E : str_eq_child s child self = Some (Returned false, self))
    by now destruct child.
  now run E.
Qed.

(** ** Lookup by name *)

Lemma first_named_Some nm children k i child :
  first_named nm children k = Some (i, child) <->
  exists j, i = k + j /\ children !! j = Some child /\ name child = nm /\
            forall j' child', j' < j -> children !! j' = Some child' -> name child' <> nm.
Proof.
  revert k. induction children as [|c rest IH]; intros k; simpl.
  - split; [discriminate|]. intros (j & _ & H & _). discriminate.
  - destruct (String.eqb (name c) nm) eqn:E.
    + apply String.eqb_eq in E. split.
      * intros [= <- <-]. exists 0. repeat split; auto with lia.
      * intros (j & -> & Hj & Hn & Hfirst). destruct j as [|j].
        -- simpl in Hj. injection Hj as <-. f_equal. f_equal. lia.
        -- exfalso. apply (Hfirst 0 c); [lia|reflexivity|exact E].
    + apply String.eqb_neq in E. rewrite IH. split.
      * intros (j & -> & Hj & Hn & Hfirst). exists (S j). repeat split; auto with lia.
        intros [|j'] child' Hlt Hl; simpl in Hl.
        -- now injection Hl as <-.
        -- apply (Hfirst j'); [lia|exact Hl].
      * intros (j & -> & Hj & Hn & Hfirst). destruct j as [|j].
        -- simpl in Hj. injection Hj as <-. contradiction.
        -- exists j. repeat split; auto with lia.
           intros j' child' Hlt Hl. apply (Hfirst (S j')); [lia|exact Hl].
Qed.

Lemma first_named_None nm children k :
  first_named nm children k = None <-> Forall (fun child => name child <> nm) children.
Proof.
  revert k. induction children as [|c rest IH]; intros k; simpl.
  - split; [constructor|reflexivity].
  - destruct (String.eqb (name c) nm) eqn:E.
    + apply String.eqb_eq in E. split; [discriminate|].
      intros H. apply Forall_cons in H as [H _]. contradiction.
    + apply String.eqb_neq in E. rewrite IH, Forall_cons. tauto.
Qed.

(** ** References *)

Lemma deref_app p q child :
  deref (p ++ q) child = deref p child ≫= deref q.
Proof.
  revert child. induction p as [|i p IH]; intros child; simpl; [reflexivity|].
  destruct child as [n|c]; [reflexivity|].
  destruct (_children c !! i); [apply IH|reflexivity].
Qed.

Lemma deref_modify p f child o :
  deref p child = Some o -> deref p (modify p f child) = Some (f o).
Proof.
  revert child. induction p as [|i p IH]; intros child; simpl.
  - now intros [= ->].
  - destruct child as [n|c]; [discriminate|]. simpl.
    rewrite list_lookup_alter_eq.
    destruct (_children c !! i) as [sub|]; [|discriminate]. simpl. apply IH.
Qed.

Lemma modify_modify p f g child :
  modify p f (modify p g child) = modify p (fun o => f (g o)) child.
Proof.
  revert child. induction p as [|i p IH]; intros child; simpl; [reflexivity|].
  destruct child as [n|c]; [reflexivity|]. simpl. f_equal. f_equal.
  rewrite list_alter_alter_eq. apply list_alter_ext; [|reflexivity].
  intros x _. apply IH.
Qed.

Lemma modify_fixed p f child o :
  deref p child = Some o -> f o = o -> modify p f child = child.
Proof.
  revert child. induction p as [|i p IH]; intros child; simpl.
  - now intros [= ->].
  - destruct child as [n|c]; [discriminate|].
    destruct (_children c !! i) as [sub|] eqn:E; [|discriminate].
    intros Hd Hf. destruct c as [nm children]. simpl in *. f_equal. f_equal.
    apply list_eq. intros j. destruct (decide (i = j)) as [<-|Hne].
    + rewrite list_lookup_alter_eq, E. simpl. f_equal. now apply IH.
    + now rewrite list_lookup_alter_ne.
Qed.

Lemma modify_keeps_class p f : keeps_class f -> keeps_class (modify p f).
Proof.
  intros Hf. destruct p as [|i p]; intros o; simpl; [apply Hf|].
  now destruct o.
Qed.

Lemma modify_root_inr p f root :
  keeps_class f -> inr (modify_root p f root) = modify p f (inr root).
Proof.
  intros Hf. unfold modify_root.
  pose proof (modify_keeps_class p f Hf (inr root)) as H.
  now destruct (modify p f (inr root)).
Qed.

Lemma appendChild_keeps_class child : keeps_class (appendChild child).
Proof. now intros [n|c]. Qed.

Lemma set_enabled_keeps_class b : keeps_class (set_enabled b).
Proof. now intros [n|c]. Qed.

Lemma nodes_unfold category : nodes category = flat_map nodes_of (_children category).
Proof. destruct category. reflexivity. Qed.

Lemma flat_map_alter_same {A B} (g : A -> list B) (f : A -> A) i l :
  (forall x, g (f x) = g x) -> flat_map g (alter f i l) = flat_map g l.
Proof.
  intros H. revert i. induction l as [|x l IH]; intros [|i]; simpl; auto.
  - now rewrite H.
  - f_equal. apply IH.
Qed.

Lemma flat_map_alter_at {A B} (g : A -> list B) (f : A -> A) i l x :
  l !! i = Some x ->
  exists l1 l2, flat_map g l = l1 ++ g x ++ l2 /\
                flat_map g (alter f i l) = l1 ++ g (f x) ++ l2.
Proof.
  revert i. induction l as [|y l IH]; intros [|i]; simpl; try discriminate.
  - intros [= ->]. now exists [], (flat_map g l).
  - intros H. destruct (IH i H) as (l1 & l2 & E1 & E2).
    exists (g y ++ l1), l2. rewrite E1. split; [now rewrite <- app_assoc|].
    change (g y ++ flat_map g (alter f i l) = (g y ++ l1) ++ g (f x) ++ l2).
    now rewrite E2, <- app_assoc.
Qed.

(** Attaching an empty category anywhere adds no node. *)
Lemma nodes_of_append_category p nm child :
  nodes_of (modify p (appendChild (inr (Category___init__ nm))) child) = nodes_of child.
Proof.
  revert child. induction p as [|i p IH]; intros [n|c]; simpl; try reflexivity.
  - rewrite !nodes_unfold. simpl. rewrite flat_map_app. simpl. apply app_nil_r.
  - rewrite !nodes_unfold. simpl. now apply flat_map_alter_same.
Qed.

(** Attaching a node to the category at [p] adds that node, once. *)
Lemma nodes_of_append_node p node child category :
  deref p child = Some (inr category) ->
  exists before after,
    nodes_of child = before ++ after /\
    nodes_of (modify p (appendChild (inl node)) child) = before ++ node :: after.
Proof.
  revert child. induction p as [|i p IH]; intros child; simpl.
  - intros [= ->]. exists (nodes category), []. simpl.
    rewrite !nodes_unfold. simpl. rewrite flat_map_app, app_nil_r. simpl. auto.
  - destruct child as [n|c]; [discriminate|].
    destruct (_children c !! i) as [sub|] eqn:E; [|discriminate].
    intros Hd. destruct (IH sub Hd) as (b & a & E1 & E2).
    destruct (flat_map_alter_at nodes_of (modify p (appendChild (inl node))) i _ sub E)
      as (l1 & l2 & F1 & F2).
    exists (l1 ++ b), (a ++ l2). simpl. rewrite !nodes_unfold. simpl.
    fold nodes_of. rewrite F1, F2, E1, E2, <- !app_assoc. simpl. auto.
Qed.

(** ** [insert] *)

Lemma load_live r self : live r self -> exists o, load r self = Some (Returned o, self).
Proof.
  destruct r as [|p]; simpl; [eauto|]. intros [o H].
  unfold bind, get_root. rewrite H. eauto.
Qed.

Lemma load_RObj p self o :
  deref p (inr (_root self)) = Some o ->
  load (RObj p) self = Some (Returned (object_of o), self).
Proof. intros H. simpl. unfold bind, get_root. now rewrite H. Qed.

Lemma getattr_children_category p self category :
  deref p (inr (_root self)) = Some (inr category) ->
  getattr_children (RObj p) self = Some (Returned (_children category), self).
Proof.
  intros H. unfold getattr_children.
  now rewrite (bind_returned _ _ _ _ _ (load_RObj _ _ _ H)).
Qed.

Lemma getattr_children_node p self node :
  deref p (inr (_root self)) = Some (inl node) ->
  getattr_children (RObj p) self = Some (Raised AttributeError, self).
Proof.
  intros H. unfold getattr_children.
  now rewrite (bind_returned _ _ _ _ _ (load_RObj _ _ _ H)).
Qed.

Lemma call_appendChild_category p child self category :
  deref p (inr (_root self)) = Some (inr category) ->
  call_appendChild (RObj p) child self =
  Some (Returned tt,
        {| _root := modify_root p (appendChild child) (_root self);
           dataChanged := dataChanged self |}).
Proof.
  intros H. unfold call_appendChild.
  rewrite (bind_returned _ _ _ _ _ (load_RObj _ _ _ H)). reflexivity.
Qed.

Lemma getitem_category p key self category :
  deref p (inr (_root self)) = Some (inr category) ->
  getitem (RObj p) key self =
  Some (Returned (match Category___getitem__ category key with
                  | Some (i, _) => RObj (p ++ [i])
                  | None => RNone
                  end), self).
Proof.
  intros H. unfold getitem.
  rewrite (bind_returned _ _ _ _ _ (load_RObj _ _ _ H)). simpl.
  now destruct (Category___getitem__ category key) as [[i c]|].
Qed.

Lemma getitem_live p key self category :
  deref p (inr (_root self)) = Some (inr category) ->
  live (match Category___getitem__ category key with
        | Some (i, _) => RObj (p ++ [i])
        | None => RNone
        end) self.
Proof.
  intros H. destruct (Category___getitem__ category key) as [[i c]|] eqn:E; [|exact I].
  simpl. rewrite deref_app, H. simpl.
  apply first_named_Some in E as (j & -> & Hj & _). simpl. rewrite Hj. eauto.
Qed.

Lemma neg_index_last {A} (l : list A) self :
  neg_index l 1 self =
  match last l with
  | Some x => Some (Returned x, self)
  | None => Some (Raised IndexError, self)
  end.
Proof.
  unfold neg_index. rewrite last_lookup.
  destruct l as [|x l]; [reflexivity|].
  replace (length (x :: l) - 1) with (Init.Nat.pred (length (x :: l))) by (simpl; lia).
  simpl Nat.ltb. now destruct ((x :: l) !! Init.Nat.pred (length (x :: l))).
Qed.

Lemma nodes_append_category p nm root :
  nodes (modify_root p (appendChild (inr (Category___init__ nm))) root) = nodes root.
Proof.
  change (nodes_of (inr (modify_root p (appendChild (inr (Category___init__ nm))) root))
          = nodes_of (inr root)).
  rewrite modify_root_inr by apply appendChild_keeps_class.
  apply nodes_of_append_category.
Qed.

Lemma nodes_append_node p node root category :
  deref p (inr root) = Some (inr category) ->
  exists before after,
    nodes root = before ++ after /\
    nodes (modify_root p (appendChild (inl node)) root) = before ++ node :: after.
Proof.
  intros H. destruct (nodes_of_append_node p node _ _ H) as (b & a & E1 & E2).
  exists b, a. split; [exact E1|].
  change (nodes_of (inr (modify_root p (appendChild (inl node)) root)) = b ++ node :: a).
  now rewrite modify_root_inr by apply appendChild_keeps_class.
Qed.

(** One turn of the loop of [insert]: on a category it always attaches a
    new empty category called [module], then moves to the first child of
    that name; on anything else the attribute lookup fails. *)
Lemma insert_body_spec module r self :
  live r self ->
  (exists p category r',
      r = RObj p /\ deref p (inr (_root self)) = Some (inr category) /\
      insert_body module r self =
      Some (Returned r',
            {| _root := modify_root p (appendChild (inr (Category___init__ module))) (_root self);
               dataChanged := dataChanged self |}) /\
      live r' {| _root := modify_root p (appendChild (inr (Category___init__ module))) (_root self);
                 dataChanged := dataChanged self |}) \/
  insert_body module r self = Some (Raised AttributeError, self).
Proof.
  intros Hlive. unfold insert_body.
  destruct r as [|p]; [right; reflexivity|].
  destruct Hlive as [o Ho]. destruct o as [n|category].
  - right. now rewrite (bind_raised _ _ _ _ _ (getattr_children_node _ _ _ Ho)).
  - left.
    set (self1 := {| _root := modify_root p (appendChild (inr (Category___init__ module))) (_root self);
                     dataChanged := dataChanged self |}).
    assert (Hd : deref p (inr (_root self1)) =
                 Some (inr (mkCategory (_name category)
                              (_children category ++ [inr (Category___init__ module)])))).
    { unfold self1. cbn [_root].
      rewrite modify_root_inr by apply appendChild_keeps_class.
      exact (deref_modify _ _ _ _ Ho). }
    eexists p, category, _. split; [reflexivity|]. split; [exact Ho|]. split.
    + pose proof (getattr_children_category _ _ _ Ho) as Hchildren. run Hchildren.
      pose proof (str_in_children_false module (_children category) self) as Hin. run Hin.
      pose proof (call_appendChild_category p (inr (Category___init__ module)) self _ Ho)
        as Happend.
      simpl negb. cbv iota. run Happend. fold self1. apply (getitem_category p module self1 _ Hd).
    + apply (getitem_live p module self1 _ Hd).
Qed.

Lemma insert_loop modules : forall r self,
  live r self ->
  exists res self',
    for_each modules insert_body r self = Some (res, self') /\
    nodes (_root self') = nodes (_root self) /\
    dataChanged self' = dataChanged self /\
    match res with
    | Returned r' => live r' self'
    | Raised e => e = AttributeError
    end.
Proof.
  induction modules as [|module rest IH]; intros r self Hlive; simpl.
  - exists (Returned r), self. auto.
  - destruct (insert_body_spec module r self Hlive)
      as [(p & category & r' & -> & Hd & Hrun & Hlive')|Hrun].
    + rewrite (bind_returned _ _ _ _ _ Hrun).
      destruct (IH _ _ Hlive') as (res & self' & E & Hn & Hs & Hres).
      exists res, self'. split; [exact E|]. split; [|split; [exact Hs|exact Hres]].
      rewrite Hn. simpl. apply nodes_append_category.
    + rewrite (bind_raised _ _ _ _ _ Hrun). exists (Raised AttributeError), self. auto.
Qed.

(** What a call of [insert] does, in every case. *)
Lemma insert_outcome module_path play_class self :
  exists res self',
    insert module_path play_class self = Some (res, self') /\
    dataChanged self' = dataChanged self /\
    match res with
    | Returned _ =>
      exists before after module_name,
        last module_path = Some module_name /\
        nodes (_root self) = before ++ after /\
        nodes (_root self') = before ++ Node___init__ module_name play_class :: after
    | Raised e =>
      nodes (_root self') = nodes (_root self) /\ (e = AttributeError \/ e = IndexError)
    end.
Proof.
  unfold insert.
  destruct (insert_loop (all_but_last module_path) (RObj []) self) as (res & self1 & E & Hn & Hs & Hres).
  { simpl. eauto. }
  destruct res as [r|e].
  - rewrite (bind_returned _ _ _ _ _ E).
    unfold bind at 1. rewrite neg_index_last.
    destruct (last module_path) as [module_name|] eqn:El.
    + unfold call_appendChild. destruct r as [|p].
      * exists (Raised AttributeError), self1. simpl. auto.
      * destruct Hres as [o Ho]. rewrite (bind_returned _ _ _ _ _ (load_RObj _ _ _ Ho)).
        destruct o as [n|category].
        -- exists (Raised AttributeError), self1. simpl. auto.
        -- eexists (Returned tt), _. split; [reflexivity|]. simpl. split; [exact Hs|].
           destruct (nodes_append_node p (Node___init__ module_name play_class) _ _ Ho)
             as (b & a & E1 & E2).
           exists b, a, module_name. rewrite <- Hn. auto.
    + exists (Raised IndexError), self1. auto.
  - rewrite (bind_raised _ _ _ _ _ E). exists (Raised e), self1. auto.
Qed.

(** ** [delete] *)

Lemma getitem_spec r key self :
  live r self ->
  (exists r', getitem r key self = Some (Returned r', self) /\ live r' self) \/
  getitem r key self = Some (Raised TypeError, self).
Proof.
  destruct r as [|p]; [right; reflexivity|].
  intros [[n|category] Ho].
  - right. unfold getitem. now rewrite (bind_returned _ _ _ _ _ (load_RObj _ _ _ Ho)).
  - left. eexists. split; [apply (getitem_category _ _ _ _ Ho)|apply (getitem_live _ _ _ _ Ho)].
Qed.

(** Item deletion fails on every object the program can hold. *)
Lemma delitem_raises r key self :
  live r self -> delitem r key self = Some (Raised TypeError, self).
Proof.
  intros H. destruct (load_live r self H) as [o Ho]. unfold delitem.
  rewrite (bind_returned _ _ _ _ _ Ho). now rewrite no_class_defines___delitem__.
Qed.

Lemma delete_walk_spec module catStack self :
  top_live catStack self ->
  (exists catStack',
      delete_walk module catStack self = Some (Returned catStack', self) /\
      top_live catStack' self) \/
  delete_walk module catStack self = Some (Raised TypeError, self).
Proof.
  intros (r & Hlast & Hlive). unfold delete_walk.
  assert (Htop : neg_index catStack 1 self = Some (Returned r, self))
    by now rewrite neg_index_last, Hlast.
  destruct (getitem_spec r module self Hlive) as [(r' & E & Hlive')|E].
  - left. exists (catStack ++ [r']). split.
    + run Htop. now run E.
    + exists r'. now rewrite last_snoc.
  - right. run Htop. now run E.
Qed.

Lemma delete_walk_loop modules : forall catStack self,
  top_live catStack self ->
  (exists catStack',
      for_each modules delete_walk catStack self = Some (Returned catStack', self) /\
      top_live catStack' self) \/
  for_each modules delete_walk catStack self = Some (Raised TypeError, self).
Proof.
  induction modules as [|module rest IH]; intros catStack self Htop; simpl.
  - left. eauto.
  - destruct (delete_walk_spec module catStack self Htop) as [(catStack' & E & Htop')|E].
    + run E. now apply IH.
    + right. now run E.
Qed.

(** Called by its name, the removal method of [Category] does remove the
    child; [del category[key]] never reaches it. *)
Example Category___del___by_name :
  Category___del__ (mkCategory "solo" [inl (Node___init__ "Kick" Kick)]) "Kick"
  = Returned (mkCategory "solo" []) /\
  Category___del__ (mkCategory "solo" []) "Kick" = Raised KeyError.
Proof. split; reflexivity. Qed.

(** ** Iteration *)

Lemma _recursive_iter_raises fuel category :
  _recursive_iter (S fuel) category = {| yielded := []; ending := Uncaught TypeError |}.
Proof. reflexivity. Qed.

Lemma height_pos category : exists h, height category = S h.
Proof. destruct category. simpl. eauto. Qed.

Lemma iteration_raises_TypeError_any self :
  PlayRegistry___iter__ self = {| yielded := []; ending := Uncaught TypeError |}.
Proof.
  unfold PlayRegistry___iter__. destruct (height_pos (_root self)) as [h ->].
  apply _recursive_iter_raises.
Qed.

(** ** Strings *)

Lemma str_app_cons c s t : String c s +:+ t = String c (s +:+ t).
Proof. reflexivity. Qed.

Lemma str_app_assoc a b c : (a +:+ b) +:+ c = a +:+ (b +:+ c).
Proof. induction a as [|x a IH]; [reflexivity|]. now rewrite !str_app_cons, IH. Qed.

Lemma str_app_nil_r s : s +:+ "" = s.
Proof. induction s as [|x s IH]; [reflexivity|]. now rewrite str_app_cons, IH. Qed.

Lemma str_app_nonempty_r s t : t <> "" -> s +:+ t <> "".
Proof. destruct s; [trivial|]. now rewrite str_app_cons. Qed.

Lemma drop_last_app s t : t <> "" -> drop_last (s +:+ t) = s +:+ drop_last t.
Proof.
  intros Ht. induction s as [|x s IH]; [reflexivity|].
  rewrite !str_app_cons. simpl.
  destruct (s +:+ t) eqn:E; [now apply str_app_nonempty_r in E|].
  now rewrite <- IH.
Qed.

Lemma drop_last_newline s : drop_last (s +:+ newline) = s.
Proof. rewrite drop_last_app by discriminate. apply str_app_nil_r. Qed.

Lemma drop_last_lines l : drop_last (lines l) = join newline l.
Proof.
  induction l as [|x [|y rest] IH]; [reflexivity| |].
  - simpl. rewrite str_app_nil_r. apply drop_last_newline.
  - change (lines (x :: y :: rest)) with ((x +:+ newline) +:+ lines (y :: rest)).
    rewrite drop_last_app, IH.
    + simpl. now rewrite str_app_assoc.
    + simpl. rewrite str_app_assoc. apply str_app_nonempty_r.
      unfold newline. now rewrite str_app_cons.
Qed.

Lemma dump_unfold depth category :
  dump depth category = join newline (map (entry depth) (_children category)).
Proof. destruct category. reflexivity. Qed.

Lemma _cat_str_unfold category indent :
  _cat_str category indent = drop_last (_cat_str_loop _cat_str indent (_children category) "").
Proof. destruct category. reflexivity. Qed.

Lemma _cat_str_loop_lines indent children :
  Forall (fun child => match child with
                       | inl _ => True
                       | inr sub => forall d, _cat_str sub d = dump d sub
                       end) children ->
  forall desc,
    _cat_str_loop _cat_str indent children desc = desc +:+ lines (map (entry indent) children).
Proof.
  induction 1 as [|child rest Hchild _ IH]; intros desc; simpl.
  - now rewrite str_app_nil_r.
  - rewrite IH. destruct child as [node|sub]; simpl.
    + unfold leaf_entry, Node___str__. destruct (_enabled node); now rewrite !str_app_assoc.
    + rewrite Hchild. replace (indent + 1) with (S indent) by lia.
      now rewrite !str_app_assoc.
Qed.

Lemma _cat_str_dump category : forall indent, _cat_str category indent = dump indent category.
Proof.
  induction category as [nm children IH] using Category_nested_ind. intros indent.
  rewrite _cat_str_unfold, dump_unfold. simpl.
  rewrite (_cat_str_loop_lines indent children IH). simpl. apply drop_last_lines.
Qed.

(** ** [setData] *)

Lemma setData_node {V} index (value : V) p node self :
  isValid index = true -> internalPointer index = RObj p ->
  deref p (inr (_root self)) = Some (inl node) ->
  setData index value CheckStateRole self =
  Some (Returned true,
        {| _root := modify_root p (set_enabled (negb (_enabled node))) (_root self);
           dataChanged := dataChanged self ++ [(index, index)] |}).
Proof.
  intros Hvalid Hptr Hd. unfold setData. simpl. rewrite Hvalid, Hptr.
  pose proof (load_RObj _ _ _ Hd) as Hload. now run Hload.
Qed.

Lemma setData_not_node {V} index (value : V) p category self :
  isValid index = true -> internalPointer index = RObj p ->
  deref p (inr (_root self)) = Some (inr category) ->
  setData index value CheckStateRole self = Some (Raised AssertionError, self).
Proof.
  intros Hvalid Hptr Hd. unfold setData. simpl. rewrite Hvalid, Hptr.
  pose proof (load_RObj _ _ _ Hd) as Hload. now run Hload.
Qed.

(** * The claims *)

(** C1. The claim: [insert] reuses an existing child category of a path
    segment and creates one only if absent, so two paths with a common prefix
    share one category.  The code: the guard [module not in category.children]
    is true for every module, so every call attaches a new category for each
    segment and then descends into the first child of that name.  After the
    two inserts of the scenario the root holds two categories called
    [demo], the second one empty. *)
Theorem insert_shared_prefix_duplicates_category :
  (insert ["demo"; "run_around"; "RunAround"] RunAround ;;
   insert ["demo"; "passing"; "PassDrill"] PassDrill) PlayRegistry___init__ =
  Some (Returned tt,
        {| _root :=
             mkCategory ""
               [inr (mkCategory "demo"
                       [inr (mkCategory "run_around" [inl (Node___init__ "RunAround" RunAround)]);
                        inr (mkCategory "passing" [inl (Node___init__ "PassDrill" PassDrill)])]);
                inr (mkCategory "demo" [])];
           dataChanged := [] |}).
Proof. reflexivity. Qed.

(** C2. The claim: iteration terminates and yields the nodes of the tree
    depth first.  The code: the generator calls the list [category.children]
    before its loop, which raises [TypeError]; on every registry it yields
    nothing and ends with that exception. *)
Theorem iteration_raises_TypeError (self : PlayRegistry) :
  PlayRegistry___iter__ self = {| yielded := []; ending := Uncaught TypeError |}.
Proof. apply iteration_raises_TypeError_any. Qed.

(** C3. The claim: [delete] of a path or key that is not in the tree raises
    [KeyError] and leaves the tree unchanged.  The code: the tree is indeed
    unchanged, but the exception is [TypeError], for every path, key and
    registry: a missing segment makes [__getitem__] return [None], which is
    then subscripted or deleted from, and [del category[key]] has no
    [__delitem__] to call. *)
Theorem delete_raises_TypeError (module_path : list string) (play_class : PlayClass)
    (self : PlayRegistry) :
  delete module_path play_class self = Some (Raised TypeError, self).
Proof.
  unfold delete, try_except_KeyError.
  destruct (delete_walk_loop (all_but_last module_path) [RObj []] self)
    as [(catStack & E & r & Hlast & Hlive)|E].
  { exists (RObj []). split; [reflexivity|]. simpl. eauto. }
  - run E.
    assert (Htop : neg_index catStack 1 self = Some (Returned r, self))
      by now rewrite neg_index_last, Hlast.
    run Htop. pose proof (delitem_raises r (__name__ play_class) self Hlive) as Hdel.
    now run Hdel.
  - now run E.
Qed.

(** C4. The claim: [delete] removes the leaf and prunes the categories it
    leaves empty.  The code: in the scenario of the claim, [delete] raises
    [TypeError] and the tree still holds the category [solo] and its node. *)
Theorem delete_removes_nothing :
  (insert ["solo"; "Kick"] Kick ;; delete ["solo"; "Kick"] Kick) PlayRegistry___init__ =
  Some (Raised TypeError, solo_registry).
Proof. reflexivity. Qed.

(** C5. The claim: [get_enabled_plays] returns the play classes of the
    enabled nodes in iteration order.  The code: the comprehension consumes
    the generator of [__iter__], so on every registry it raises [TypeError]
    and returns no list. *)
Theorem get_enabled_plays_raises_TypeError (self : PlayRegistry) :
  get_enabled_plays self = Some (Raised TypeError, self).
Proof. unfold get_enabled_plays. now rewrite iteration_raises_TypeError_any. Qed.

(** C6. Through [setData] with the check-state role and a valid index, a
    node's [enabled] flag is flipped, [dataChanged] is emitted once with that
    index as both corners, and [True] is returned; the tree is otherwise
    unchanged, and a second toggle restores it.  On a category [setData]
    raises [AssertionError] and changes nothing. *)
Theorem setData_toggle {V} (self : PlayRegistry) (index : QModelIndex) (value value' : V)
    (p : list nat) (o : Child) :
  isValid index = true ->
  internalPointer index = RObj p ->
  deref p (inr (_root self)) = Some o ->
  match o with
  | inl node =>
    exists self1 self2,
      setData index value CheckStateRole self = Some (Returned true, self1) /\
      _root self1 = modify_root p (set_enabled (negb (_enabled node))) (_root self) /\
      deref p (inr (_root self1)) =
        Some (inl {| _module_name := _module_name node; _play_class := _play_class node;
                     _enabled := negb (_enabled node) |}) /\
      dataChanged self1 = dataChanged self ++ [(index, index)] /\
      setData index value' CheckStateRole self1 = Some (Returned true, self2) /\
      _root self2 = _root self
  | inr category =>
    setData index value CheckStateRole self = Some (Raised AssertionError, self)
  end.
Proof.
  intros Hvalid Hptr Hd. destruct o as [node|category].
  - assert (Hd1 : deref p (inr (modify_root p (set_enabled (negb (_enabled node))) (_root self)))
                  = Some (set_enabled (negb (_enabled node)) (inl node))).
    { rewrite modify_root_inr by apply set_enabled_keeps_class.
      exact (deref_modify _ _ _ _ Hd). }
    set (node1 := {| _module_name := _module_name node; _play_class := _play_class node;
                     _enabled := negb (_enabled node) |}).
    set (self1 := {| _root := modify_root p (set_enabled (negb (_enabled node))) (_root self);
                     dataChanged := dataChanged self ++ [(index, index)] |}).
    exists self1. eexists. split; [exact (setData_node index value p node self Hvalid Hptr Hd)|].
    split; [reflexivity|]. split; [exact Hd1|]. split; [reflexivity|].
    split; [exact (setData_node index value' p node1 self1 Hvalid Hptr Hd1)|].
    cbn [_root _enabled self1 node1].
    enough (E : @inr Node Category
                  (modify_root p (set_enabled (negb (negb (_enabled node))))
                     (modify_root p (set_enabled (negb (_enabled node))) (_root self)))
                = inr (_root self)) by now injection E.
    rewrite !modify_root_inr by apply set_enabled_keeps_class.
    rewrite modify_modify. apply (modify_fixed _ _ _ _ Hd).
    destruct node as [m c e]. simpl. now rewrite negb_involutive.
  - exact (setData_not_node index value p category self Hvalid Hptr Hd).
Qed.

(** The toggle on the node of [Kick] in [solo_registry], and on its
    category. *)
Lemma setData_toggle_witness :
  (isValid kick_index = true /\
   internalPointer kick_index = RObj [0; 0] /\
   deref [0; 0] (inr (_root solo_registry)) = Some (inl (Node___init__ "Kick" Kick))) /\
  (exists self1 self2,
      setData kick_index true CheckStateRole solo_registry = Some (Returned true, self1) /\
      _root self1 = modify_root [0; 0] (set_enabled false) (_root solo_registry) /\
      deref [0; 0] (inr (_root self1)) = Some (inl (mkNode "Kick" Kick false)) /\
      dataChanged self1 = [(kick_index, kick_index)] /\
      setData kick_index false CheckStateRole self1 = Some (Returned true, self2) /\
      _root self2 = _root solo_registry) /\
  setData solo_index true CheckStateRole solo_registry =
  Some (Raised AssertionError, solo_registry).
Proof.
  split; [repeat split|split].
  - exact (setData_toggle solo_registry kick_index true false [0; 0]
             (inl (Node___init__ "Kick" Kick)) eq_refl eq_refl eq_refl).
  - exact (setData_toggle solo_registry solo_index true true [0]
             (inr (mkCategory "solo" [inl (Node___init__ "Kick" Kick)]))
             eq_refl eq_refl eq_refl).
Defined.

(** C7. The claim: right after [insert(p, x)], [x in registry] is true.
    The code: whatever [insert] did, the membership test iterates over the
    registry and so raises [TypeError]. *)
Theorem contains_after_insert_raises_TypeError (module_path : list string)
    (play_class : PlayClass) (self : PlayRegistry) :
  exists res self',
    insert module_path play_class self = Some (res, self') /\
    PlayRegistry___contains__ play_class self' = Some (Raised TypeError, self').
Proof.
  destruct (insert_outcome module_path play_class self) as (res & self' & E & _).
  exists res, self'. split; [exact E|].
  unfold PlayRegistry___contains__. now rewrite iteration_raises_TypeError_any.
Qed.

(** C8. [str(registry)] is the two header lines followed by the dump of the
    root at depth 0, where a dump is the newline-separated entries of the
    children: four spaces per level, then for a node its class name and
    [[ENABLED]] or [[DISABLED]], for a category its name, a colon, a newline
    and the dump of that category one level deeper. *)
Theorem str_is_indented_dump (self : PlayRegistry) :
  PlayRegistry___str__ self =
  "PlayRegistry:" +:+ newline +:+ "-------------" +:+ newline +:+ dump 0 (_root self).
Proof.
  unfold PlayRegistry___str__. rewrite _cat_str_dump. now rewrite !str_app_assoc.
Qed.

(** C9. A call of [insert] that returns has added exactly one node to the
    tree, built by [Node.__init__] from the last path segment and the play
    class, and that node is enabled. *)
Theorem insert_creates_enabled_leaf (module_path : list string) (play_class : PlayClass)
    (self self' : PlayRegistry) :
  insert module_path play_class self = Some (Returned tt, self') ->
  exists before after module_name,
    last module_path = Some module_name /\
    nodes (_root self) = before ++ after /\
    nodes (_root self') = before ++ Node___init__ module_name play_class :: after /\
    _enabled (Node___init__ module_name play_class) = true.
Proof.
  intros H. destruct (insert_outcome module_path play_class self) as (res & self1 & E & _ & Hres).
  rewrite H in E. injection E as <- <-.
  destruct Hres as (before & after & module_name & Hlast & Hn & Hn').
  exists before, after, module_name. auto.
Qed.

(** The first insert into a new registry. *)
Lemma insert_creates_enabled_leaf_witness :
  insert ["solo"; "Kick"] Kick PlayRegistry___init__ = Some (Returned tt, solo_registry) /\
  exists before after module_name,
    last ["solo"; "Kick"] = Some module_name /\
    nodes (_root PlayRegistry___init__) = before ++ after /\
    nodes (_root solo_registry) = before ++ Node___init__ module_name Kick :: after /\
    _enabled (Node___init__ module_name Kick) = true.
Proof.
  split; [reflexivity|].
  exact (insert_creates_enabled_leaf ["solo"; "Kick"] Kick PlayRegistry___init__ solo_registry
           eq_refl).
Defined.

(** C10. [category[name]] is [None] exactly when no child has that name,
    and then the subscription returns normally; [has_child_with_name] is
    true exactly when some child has that name; and a child is returned
    exactly when it has the name and no child before it has. *)
Theorem getitem_by_name (self : Category) (nm : string) :
  (Category___getitem__ self nm = None <->
   Forall (fun child => name child <> nm) (_children self)) /\
  (forall registry p,
      deref p (inr (_root registry)) = Some (inr self) ->
      Category___getitem__ self nm = None ->
      getitem (RObj p) nm registry = Some (Returned RNone, registry)) /\
  (has_child_with_name self nm = true <->
   Exists (fun child => name child = nm) (_children self)) /\
  (forall i child,
      Category___getitem__ self nm = Some (i, child) <->
      _children self !! i = Some child /\ name child = nm /\
      forall j child', j < i -> _children self !! j = Some child' -> name child' <> nm).
Proof.
  unfold has_child_with_name. split; [|split; [|split]].
  - apply first_named_None.
  - intros registry p Hd Hnone. rewrite (getitem_category _ _ _ _ Hd). now rewrite Hnone.
  - unfold Category___getitem__. split.
    + destruct (first_named nm (_children self) 0) as [[i child]|] eqn:E; [|discriminate].
      intros _. apply first_named_Some in E as (j & _ & Hj & Hn & _).
      apply Exists_exists. exists child. split; [|exact Hn].
      apply list_elem_of_lookup. eauto.
    + intros Hex. destruct (first_named nm (_children self) 0) eqn:E; [reflexivity|].
      apply first_named_None in E. apply Exists_exists in Hex as (child & Hin & Hn).
      rewrite Forall_forall in E. now apply E in Hin.
  - intros i child. unfold Category___getitem__. rewrite first_named_Some. split.
    + intros (j & -> & H). exact H.
    + intros H. exists i. auto.
Qed.

(** * Further properties *)

(** ** [insert]: what it does to the root *)

Lemma all_but_last_cons {A} (x y : A) l : all_but_last (x :: y :: l) = x :: all_but_last (y :: l).
Proof. unfold all_but_last. simpl. now rewrite !Nat.sub_0_r. Qed.

Lemma first_named_app_l nm l l' k r :
  first_named nm l k = Some r -> first_named nm (l ++ l') k = Some r.
Proof.
  revert k. induction l as [|c l IH]; intros k; simpl; [discriminate|].
  destruct (String.eqb (name c) nm); [trivial|apply IH].
Qed.

Lemma first_named_app_r nm l l' k :
  first_named nm l k = None -> first_named nm (l ++ l') k = first_named nm l' (k + length l).
Proof.
  revert k. induction l as [|c l IH]; intros k; simpl.
  - intros _. f_equal. lia.
  - destruct (String.eqb (name c) nm); [discriminate|].
    intros H. rewrite (IH _ H). f_equal. lia.
Qed.

(** After the new category is attached, a child of that name is found. *)
Lemma first_named_attached module children :
  exists i child,
    first_named module (children ++ [inr (Category___init__ module)]) 0 = Some (i, child).
Proof.
  destruct (first_named module (children ++ [inr (Category___init__ module)]) 0)
    as [[i child]|] eqn:E; [eauto|].
  apply first_named_None, Forall_app in E as [_ E].
  apply Forall_cons in E as [E _]. now contradiction E.
Qed.

Lemma name_modify p f child :
  (forall o, name (f o) = name o) -> name (modify p f child) = name child.
Proof. intros Hf. destruct p as [|i p]; simpl; [apply Hf|]. now destruct child. Qed.

Lemma map_alter_same {A B} (g : A -> B) (f : A -> A) i l :
  (forall x, g (f x) = g x) -> map g (alter f i l) = map g l.
Proof.
  intros H. revert i. induction l as [|x l IH]; intros [|i]; simpl; auto.
  - now rewrite H.
  - f_equal. apply IH.
Qed.

Lemma name_appendChild child o : name (appendChild child o) = name o.
Proof. now destruct o. Qed.

(** A change below the root leaves the names of the root's children. *)
Lemma names_modify_root_deep p f root :
  p <> [] -> (forall o, name (f o) = name o) ->
  map name (_children (modify_root p f root)) = map name (_children root).
Proof.
  intros Hp Hf. destruct p as [|i p]; [contradiction|].
  unfold modify_root. simpl. apply map_alter_same. intros x. now apply name_modify.
Qed.

(** One turn of the loop of [insert] on a category, with the reference it
    moves to. *)
Lemma insert_body_step module p self category :
  deref p (inr (_root self)) = Some (inr category) ->
  exists i child,
    first_named module (_children category ++ [inr (Category___init__ module)]) 0
    = Some (i, child) /\
    insert_body module (RObj p) self =
    Some (Returned (RObj (p ++ [i])),
          {| _root := modify_root p (appendChild (inr (Category___init__ module))) (_root self);
             dataChanged := dataChanged self |}) /\
    deref (p ++ [i])
      (inr (modify_root p (appendChild (inr (Category___init__ module))) (_root self)))
    = Some child.
Proof.
  intros Ho.
  destruct (first_named_attached module (_children category)) as (i & child & Hfound).
  set (self1 := {| _root := modify_root p (appendChild (inr (Category___init__ module))) (_root self);
                   dataChanged := dataChanged self |}).
  assert (Hd : deref p (inr (_root self1)) =
               Some (inr (mkCategory (_name category)
                            (_children category ++ [inr (Category___init__ module)])))).
  { unfold self1. cbn [_root].
    rewrite modify_root_inr by apply appendChild_keeps_class.
    exact (deref_modify _ _ _ _ Ho). }
  exists i, child. split; [exact Hfound|]. split.
  - unfold insert_body.
    pose proof (getattr_children_category _ _ _ Ho) as Hchildren. run Hchildren.
    pose proof (str_in_children_false module (_children category) self) as Hin. run Hin.
    pose proof (call_appendChild_category p (inr (Category___init__ module)) self _ Ho)
      as Happend.
    simpl negb. cbv iota. run Happend. fold self1.
    rewrite (getitem_category p module self1 _ Hd).
    unfold Category___getitem__. cbn [_children]. now rewrite Hfound.
  - change (deref (p ++ [i]) (inr (_root self1)) = Some child).
    rewrite deref_app, Hd. simpl.
    apply first_named_Some in Hfound as (j & -> & Hj & _). simpl. now rewrite Hj.
Qed.

Lemma insert_body_deep module r self :
  live r self ->
  (exists r' self',
      insert_body module r self = Some (Returned r', self') /\
      live r' self' /\ deep r' /\
      dataChanged self' = dataChanged self /\
      (deep r -> map name (_children (_root self')) = map name (_children (_root self)))) \/
  insert_body module r self = Some (Raised AttributeError, self).
Proof.
  intros Hlive. destruct r as [|p]; [right; reflexivity|].
  destruct Hlive as [[n|category] Ho].
  - right. unfold insert_body. pose proof (getattr_children_node _ _ _ Ho) as E. now run E.
  - left. destruct (insert_body_step module p self category Ho) as (i & child & _ & E & Hd).
    eexists _, _. split; [exact E|]. split; [|split; [|split]].
    + simpl. rewrite Hd. eauto.
    + simpl. now destruct p.
    + reflexivity.
    + intros Hp. simpl in Hp |- *.
      apply names_modify_root_deep; [exact Hp|apply name_appendChild].
Qed.

Lemma insert_loop_deep modules : forall r self,
  live r self -> deep r ->
  exists res self',
    for_each modules insert_body r self = Some (res, self') /\
    map name (_children (_root self')) = map name (_children (_root self)) /\
    match res with
    | Returned r' => live r' self' /\ deep r'
    | Raised e => e = AttributeError
    end.
Proof.
  induction modules as [|module rest IH]; intros r self Hlive Hdeep; simpl.
  - exists (Returned r), self. auto.
  - destruct (insert_body_deep module r self Hlive)
      as [(r' & self1 & E & Hlive' & Hdeep' & _ & Hn)|E].
    + run E. destruct (IH _ _ Hlive' Hdeep') as (res & self' & E' & Hn' & Hres).
      exists res, self'. split; [exact E'|]. split; [|exact Hres].
      rewrite Hn'. now apply Hn.
    + run E. exists (Raised AttributeError), self. auto.
Qed.

(** The last statement of [insert], on a reference below the root. *)
Lemma final_appendChild_deep r node self :
  live r self -> deep r ->
  exists res self',
    call_appendChild r (inl node) self = Some (res, self') /\
    map name (_children (_root self')) = map name (_children (_root self)).
Proof.
  intros Hlive Hdeep. destruct r as [|p]; [exists (Raised AttributeError), self; auto|].
  destruct Hlive as [[n|category] Ho].
  - exists (Raised AttributeError), self. split; [|reflexivity].
    unfold call_appendChild. pose proof (load_RObj _ _ _ Ho) as E. now run E.
  - eexists _, _. split; [apply (call_appendChild_category _ _ _ _ Ho)|].
    simpl. apply names_modify_root_deep; [exact Hdeep|apply name_appendChild].
Qed.

Lemma deref_root root : deref [] (inr root) = Some (@inr Node Category root).
Proof. reflexivity. Qed.

Lemma bind_assoc {A B C} (m : M A) (k : A -> M B) (k' : B -> M C) st :
  bind (bind m k) k' st = bind m (fun a => bind (k a) k') st.
Proof. unfold bind. now destruct (m st) as [[[a|e] st']|]. Qed.

Lemma neg_index_last_cons {A} (x : A) l self :
  exists y, neg_index (x :: l) 1 self = Some (Returned y, self).
Proof.
  rewrite neg_index_last. destruct (last (x :: l)) as [y|] eqn:E; [eauto|].
  now apply last_None in E.
Qed.

(** [insert] with a path of two segments or more: the root gains one
    child, a category called after the first segment. *)
Lemma insert_root_names_category segment second rest play_class self :
  exists res self',
    insert (segment :: second :: rest) play_class self = Some (res, self') /\
    map name (_children (_root self')) = map name (_children (_root self)) ++ [segment].
Proof.
  unfold insert. rewrite all_but_last_cons. cbn [for_each]. rewrite bind_assoc.
  destruct (insert_body_step segment [] self (_root self) (deref_root _))
    as (i & child & _ & E & Hd).
  run E.
  set (self1 := {| _root := modify_root [] (appendChild (inr (Category___init__ segment))) (_root self);
                   dataChanged := dataChanged self |}) in *.
  assert (Hnames : map name (_children (_root self1)) = map name (_children (_root self)) ++ [segment]).
  { unfold self1, modify_root. simpl. now rewrite map_app. }
  destruct (insert_loop_deep (all_but_last (second :: rest)) (RObj ([] ++ [i])) self1)
    as (res & self2 & E2 & Hn2 & Hres).
  { simpl. unfold self1. cbn [_root]. simpl in Hd. rewrite Hd. eauto. }
  { simpl. discriminate. }
  destruct res as [r|e].
  - run E2. destruct Hres as [Hlive Hdeep].
    destruct (neg_index_last_cons segment (second :: rest) self2) as [module_name Hlast].
    run Hlast.
    destruct (final_appendChild_deep r (Node___init__ module_name play_class) self2 Hlive Hdeep)
      as (res & self3 & E3 & Hn3).
    exists res, self3. split; [exact E3|]. now rewrite Hn3, Hn2.
  - run E2. exists (Raised e), self2. split; [reflexivity|]. now rewrite Hn2.
Qed.

Lemma has_child_with_name_names category nm :
  has_child_with_name category nm = true <-> nm ∈ map name (_children category).
Proof.
  unfold has_child_with_name, Category___getitem__.
  destruct (first_named nm (_children category) 0) as [[i child]|] eqn:E.
  - split; [intros _|reflexivity].
    apply first_named_Some in E as (j & _ & Hj & Hn & _).
    apply list_elem_of_fmap. exists child. split; [now symmetry|].
    apply list_elem_of_lookup. eauto.
  - split; [discriminate|]. intros Hin. apply first_named_None in E.
    apply list_elem_of_fmap in Hin as (child & -> & Hin).
    rewrite Forall_forall in E. now apply E in Hin.
Qed.

(** [insert] with a single segment attaches the node to the root. *)
Lemma insert_single segment play_class self :
  insert [segment] play_class self =
  Some (Returned tt,
        {| _root := mkCategory (_name (_root self))
                      (_children (_root self) ++ [inl (Node___init__ segment play_class)]);
           dataChanged := dataChanged self |}).
Proof. reflexivity. Qed.

Lemma rowCount_invalid r c ptr self :
  rowCount (mkIndex false r c ptr) self = Some (Returned (length (_children (_root self))), self).
Proof. reflexivity. Qed.

(** X1. Every call of [insert] ends by returning or by raising
    [AttributeError] or [IndexError]; it emits no [dataChanged]; a call that
    raises leaves the nodes of the tree as they were; and on the empty path
    it raises [IndexError] with the registry untouched. *)
Theorem insert_failure_modes (module_path : list string) (play_class : PlayClass)
    (self : PlayRegistry) :
  exists res self',
    insert module_path play_class self = Some (res, self') /\
    dataChanged self' = dataChanged self /\
    (res = Returned tt \/ res = Raised AttributeError \/ res = Raised IndexError) /\
    (res <> Returned tt -> nodes (_root self') = nodes (_root self)) /\
    (module_path = [] -> res = Raised IndexError /\ self' = self).
Proof.
  destruct module_path as [|segment rest].
  - exists (Raised IndexError), self. repeat split; auto.
  - destruct (insert_outcome (segment :: rest) play_class self) as (res & self' & E & Hs & Hres).
    exists res, self'. split; [exact E|]. split; [exact Hs|].
    destruct res as [[]|e].
    + split; [auto|]. split; [congruence|discriminate].
    + destruct Hres as [Hn [-> | ->]]; (split; [auto|]); (split; [auto|discriminate]).
Qed.

(** X2. [insert] with a path of two segments or more never reuses a
    category of the root: whatever the tree holds and however the call ends,
    the root gains exactly one child, called after the first segment, behind
    the children it had; so [has_child_with_name] holds for that segment
    afterwards, and a root that already had such a child has two. *)
Theorem insert_adds_root_category (segment second : string) (rest : list string)
    (play_class : PlayClass) (self : PlayRegistry) :
  exists res self',
    insert (segment :: second :: rest) play_class self = Some (res, self') /\
    map name (_children (_root self')) = map name (_children (_root self)) ++ [segment] /\
    has_child_with_name (_root self') segment = true.
Proof.
  destruct (insert_root_names_category segment second rest play_class self)
    as (res & self' & E & Hn).
  exists res, self'. split; [exact E|]. split; [exact Hn|].
  apply has_child_with_name_names. rewrite Hn. apply elem_of_app. right. constructor.
Qed.

(** X3. A node of the root whose class is called like the first segment,
    standing before any category of that name, shadows the category:
    [insert] with a longer path attaches an empty category of that name to
    the root, descends into the node and raises [AttributeError]; the empty
    category stays. *)
Theorem insert_name_collision (segment second : string) (rest : list string)
    (play_class : PlayClass) (self : PlayRegistry) (i : nat) (node : Node) :
  Category___getitem__ (_root self) segment = Some (i, inl node) ->
  insert (segment :: second :: rest) play_class self =
  Some (Raised AttributeError,
        {| _root := mkCategory (_name (_root self))
                      (_children (_root self) ++ [inr (Category___init__ segment)]);
           dataChanged := dataChanged self |}).
Proof.
  intros Hfirst. unfold insert. rewrite all_but_last_cons. cbn [for_each]. rewrite bind_assoc.
  destruct (insert_body_step segment [] self (_root self) (deref_root _))
    as (i' & child & Hfound & E & Hd).
  rewrite (first_named_app_l _ _ _ _ _ Hfirst) in Hfound. injection Hfound as <- <-.
  run E.
  change (modify_root [] (appendChild (inr (Category___init__ segment))) (_root self))
    with (mkCategory (_name (_root self))
            (_children (_root self) ++ [inr (Category___init__ segment)])) in *.
  set (self1 := {| _root := _; dataChanged := _ |}) in *.
  change (deref [i] (inr (_root self1)) = Some (inl node)) in Hd.
  change ([] ++ [i]) with [i].
  destruct rest as [|third rest].
  - change (all_but_last [second]) with (@nil string). cbn [for_each].
    assert (E1 : ret (RObj [i]) self1 = Some (Returned (RObj [i]), self1)) by reflexivity.
    run E1.
    destruct (neg_index_last_cons segment [second] self1) as [module_name Hlast]. run Hlast.
    unfold call_appendChild. pose proof (load_RObj _ _ _ Hd) as Hload. now run Hload.
  - rewrite all_but_last_cons. cbn [for_each]. rewrite bind_assoc.
    assert (E1 : insert_body second (RObj [i]) self1 = Some (Raised AttributeError, self1)).
    { unfold insert_body. pose proof (getattr_children_node _ _ _ Hd) as Hc. now run Hc. }
    now run E1.
Qed.

(** The node of [Kick] in the root shadows a folder called [Kick]. *)
Lemma insert_name_collision_witness :
  Category___getitem__ (_root kick_registry) "Kick" = Some (0, inl (Node___init__ "kick" Kick)) /\
  insert ["Kick"; "pass_drill"] PassDrill kick_registry =
  Some (Raised AttributeError,
        {| _root := mkCategory "" [inl (Node___init__ "kick" Kick);
                                   inr (Category___init__ "Kick")];
           dataChanged := [] |}).
Proof.
  split; [reflexivity|].
  exact (insert_name_collision "Kick" "pass_drill" [] PassDrill kick_registry 0
           (Node___init__ "kick" Kick) eq_refl).
Defined.

(** X4. Every call of [insert] with a non-empty path makes the top-level
    [rowCount] one larger, whether the call returns or raises. *)
Theorem rowCount_grows_with_insert (segment : string) (rest : list string)
    (play_class : PlayClass) (self : PlayRegistry) (r c : nat) (ptr : ref) :
  exists res self' n,
    insert (segment :: rest) play_class self = Some (res, self') /\
    rowCount (mkIndex false r c ptr) self = Some (Returned n, self) /\
    rowCount (mkIndex false r c ptr) self' = Some (Returned (S n), self').
Proof.
  destruct rest as [|second rest].
  - eexists _, _, _. split; [apply insert_single|]. rewrite !rowCount_invalid. split; [reflexivity|].
    simpl. rewrite length_app. simpl. do 3 f_equal. lia.
  - destruct (insert_root_names_category segment second rest play_class self)
      as (res & self' & E & Hn).
    exists res, self', (length (_children (_root self))). split; [exact E|].
    rewrite !rowCount_invalid. split; [reflexivity|].
    apply (f_equal length) in Hn. rewrite length_app, !length_map in Hn. simpl in Hn.
    do 3 f_equal. lia.
Qed.

(** ** [Category]: removal and lookup *)

(** X5. Called by its name, [Category.__del__(name)] removes the first
    child of that name and nothing else, keeping the order of the others; it
    raises [KeyError] exactly when no child has the name. *)
Theorem Category___del___first (self : Category) (nm : string) :
  match Category___del__ self nm with
  | Returned self' =>
    exists before child after,
      _children self = before ++ child :: after /\
      name child = nm /\
      Forall (fun c => name c <> nm) before /\
      self' = mkCategory (_name self) (before ++ after)
  | Raised e =>
    e = KeyError /\ Forall (fun child => name child <> nm) (_children self)
  end.
Proof.
  unfold Category___del__, Category___getitem__.
  destruct (first_named nm (_children self) 0) as [[i child]|] eqn:E.
  - apply first_named_Some in E as (j & -> & Hj & Hn & Hfirst). simpl.
    exists (take j (_children self)), child, (drop (S j) (_children self)).
    split; [now rewrite take_drop_middle|]. split; [exact Hn|]. split.
    + apply Forall_lookup_2. intros k c Hk.
      apply lookup_take_Some in Hk as [Hk Hlt]. now apply (Hfirst k).
    + now rewrite delete_take_drop.
  - split; [reflexivity|]. now apply first_named_None in E.
Qed.

(** X6. [c.appendChild(child)] followed by [c[name]], on the category at
    [p]: a child that already answered to the name still does (the older
    child shadows the new one); otherwise the new child is found, at the last
    row, if it has the name, and [None] is returned if it has not. *)
Theorem getitem_after_appendChild (self : PlayRegistry) (p : list nat) (category : Category)
    (child : Child) (nm : string) :
  deref p (inr (_root self)) = Some (inr category) ->
  (call_appendChild (RObj p) child ;; getitem (RObj p) nm) self =
  Some (Returned (match Category___getitem__ category nm with
                  | Some (i, _) => RObj (p ++ [i])
                  | None =>
                    if String.eqb (name child) nm
                    then RObj (p ++ [length (_children category)])
                    else RNone
                  end),
        {| _root := modify_root p (appendChild child) (_root self);
           dataChanged := dataChanged self |}).
Proof.
  intros Ho. pose proof (call_appendChild_category p child self _ Ho) as Happend. run Happend.
  set (self1 := {| _root := _; dataChanged := _ |}).
  assert (Hd : deref p (inr (_root self1)) =
               Some (inr (mkCategory (_name category) (_children category ++ [child])))).
  { unfold self1. cbn [_root].
    rewrite modify_root_inr by apply appendChild_keeps_class.
    exact (deref_modify _ _ _ _ Ho). }
  rewrite (getitem_category p nm self1 _ Hd). do 3 f_equal.
  unfold Category___getitem__. cbn [_children].
  destruct (first_named nm (_children category) 0) as [[i c]|] eqn:E.
  - now rewrite (first_named_app_l _ _ _ _ _ E).
  - rewrite (first_named_app_r _ _ _ _ E). simpl.
    now destruct (String.eqb (name child) nm).
Qed.

(** In [solo_registry], a second node of [Kick] attached to [solo] is
    shadowed by the first. *)
Lemma getitem_after_appendChild_witness :
  deref [0] (inr (_root solo_registry))
  = Some (inr (mkCategory "solo" [inl (Node___init__ "Kick" Kick)])) /\
  (call_appendChild (RObj [0]) (inl (Node___init__ "again" Kick)) ;;
   getitem (RObj [0]) "Kick") solo_registry =
  Some (Returned (RObj [0; 0]),
        {| _root := modify_root [0] (appendChild (inl (Node___init__ "again" Kick)))
                      (_root solo_registry);
           dataChanged := [] |}).
Proof.
  split; [reflexivity|].
  exact (getitem_after_appendChild solo_registry [0] _ (inl (Node___init__ "again" Kick))
           "Kick" eq_refl).
Defined.

(** ** The item model *)

Lemma erase_unfold category :
  erase category = mkCategory (_name category) (map erase_child (_children category)).
Proof. destruct category. reflexivity. Qed.

Lemma erase_child_modify p b child :
  erase_child (modify p (set_enabled b) child) = erase_child child.
Proof.
  revert child. induction p as [|i p IH]; intros [n|c]; simpl; try reflexivity.
  rewrite !erase_unfold. simpl. f_equal. f_equal. now apply map_alter_same.
Qed.

Lemma erase_modify_root p b root :
  erase (modify_root p (set_enabled b) root) = erase root.
Proof.
  enough (E : erase_child (inr (modify_root p (set_enabled b) root)) = erase_child (inr root))
    by now injection E.
  rewrite modify_root_inr by apply set_enabled_keeps_class. apply erase_child_modify.
Qed.

(** X7. [data] with the check-state role reads the flag that [setData]
    flips: on a valid index of a node it gives [enabled], after a toggle it
    gives the negation, and the name shown in column 0 is the same before and
    after. *)
Theorem data_follows_setData {V} (self : PlayRegistry) (index : QModelIndex) (value : V)
    (p : list nat) (node : Node) :
  isValid index = true ->
  internalPointer index = RObj p ->
  deref p (inr (_root self)) = Some (inl node) ->
  data index CheckStateRole self = Some (Returned (VBool (_enabled node)), self) /\
  exists self1,
    setData index value CheckStateRole self = Some (Returned true, self1) /\
    data index CheckStateRole self1 = Some (Returned (VBool (negb (_enabled node))), self1) /\
    (column index = 0 ->
     data index DisplayRole self = Some (Returned (VStr (__name__ (_play_class node))), self) /\
     data index DisplayRole self1 = Some (Returned (VStr (__name__ (_play_class node))), self1)).
Proof.
  intros Hvalid Hptr Hd.
  set (self1 := {| _root := modify_root p (set_enabled (negb (_enabled node))) (_root self);
                   dataChanged := dataChanged self ++ [(index, index)] |}).
  assert (Hd1 : deref p (inr (_root self1))
                = Some (set_enabled (negb (_enabled node)) (inl node))).
  { unfold self1. cbn [_root]. rewrite modify_root_inr by apply set_enabled_keeps_class.
    exact (deref_modify _ _ _ _ Hd). }
  pose proof (load_RObj _ _ _ Hd) as Hload. pose proof (load_RObj _ _ _ Hd1) as Hload1.
  split; [|exists self1; split; [|split]].
  - unfold data. rewrite Hvalid, Hptr. cbn -[load]. now run Hload.
  - exact (setData_node index value p node self Hvalid Hptr Hd).
  - unfold data. rewrite Hvalid, Hptr. cbn -[load]. now run Hload1.
  - intros Hcol. unfold data, getattr_name. rewrite Hvalid, Hptr, Hcol. cbn -[load].
    rewrite !bind_assoc. split.
    + run Hload. reflexivity.
    + run Hload1. reflexivity.
Qed.

Lemma data_follows_setData_witness :
  (isValid kick_index = true /\ internalPointer kick_index = RObj [0; 0] /\
   deref [0; 0] (inr (_root solo_registry)) = Some (inl (Node___init__ "Kick" Kick))) /\
  data kick_index CheckStateRole solo_registry = Some (Returned (VBool true), solo_registry) /\
  exists self1,
    setData kick_index true CheckStateRole solo_registry = Some (Returned true, self1) /\
    data kick_index CheckStateRole self1 = Some (Returned (VBool false), self1) /\
    (column kick_index = 0 ->
     data kick_index DisplayRole solo_registry = Some (Returned (VStr "Kick"), solo_registry) /\
     data kick_index DisplayRole self1 = Some (Returned (VStr "Kick"), self1)).
Proof.
  split; [repeat split|].
  exact (data_follows_setData solo_registry kick_index true [0; 0] (Node___init__ "Kick" Kick)
           eq_refl eq_refl eq_refl).
Defined.

(** X8. [setData] changes nothing but [enabled] flags: whatever the index,
    the value and the role, the tree it leaves has the same categories and
    nodes in the same places; unless it returns [True] the registry is
    untouched; and with another role or an invalid index it returns [False]. *)
Theorem setData_changes_flags_only {V} (index : QModelIndex) (value : V) (role : nat)
    (self : PlayRegistry) (res : outcome bool) (self' : PlayRegistry) :
  setData index value role self = Some (res, self') ->
  erase (_root self') = erase (_root self) /\
  (res = Returned true \/ self' = self) /\
  (role <> CheckStateRole \/ isValid index = false -> res = Returned false /\ self' = self).
Proof.
  assert (Hsame : forall e,
             (role = CheckStateRole -> isValid index = true ->
              erase (_root self) = erase (_root self) /\
              (Raised e = Returned true \/ self = self) /\
              (role <> CheckStateRole \/ isValid index = false ->
               @Raised bool e = Returned false /\ self = self))).
  { intros e Hrole Hvalid. split; [reflexivity|]. split; [now right|].
    intros [Hr|Hv]; [contradiction|congruence]. }
  unfold setData. destruct (Nat.eqb role CheckStateRole) eqn:Hrole.
  - apply Nat.eqb_eq in Hrole. destruct (isValid index) eqn:Hvalid.
    + destruct (internalPointer index) as [|p] eqn:Hptr.
      * intros [= <- <-]. now apply Hsame.
      * destruct (deref p (inr (_root self))) as [o|] eqn:Hd.
        -- pose proof (load_RObj _ _ _ Hd) as Hload. run Hload. destruct o as [n|c]; simpl.
           ++ intros [= <- <-]. simpl. split; [apply erase_modify_root|]. split; [now left|].
              intros [Hr|Hv]; [contradiction|discriminate].
           ++ intros [= <- <-]. now apply Hsame.
        -- simpl. unfold bind, get_root. rewrite Hd. discriminate.
    + intros [= <- <-]. auto.
  - intros [= <- <-]. auto.
Qed.

Lemma setData_changes_flags_only_witness :
  setData kick_index true CheckStateRole solo_registry =
  Some (Returned true,
        {| _root := mkCategory "" [inr (mkCategory "solo" [inl (mkNode "Kick" Kick false)])];
           dataChanged := [(kick_index, kick_index)] |}) /\
  erase (mkCategory "" [inr (mkCategory "solo" [inl (mkNode "Kick" Kick false)])])
  = erase (_root solo_registry).
Proof.
  split; [reflexivity|].
  exact (proj1 (setData_changes_flags_only kick_index true CheckStateRole solo_registry
                  (Returned true) _ eq_refl)).
Defined.

Lemma index_lookup {A} (l : list A) i self :
  index l i self =
  match l !! i with
  | Some x => Some (Returned x, self)
  | None => Some (Raised IndexError, self)
  end.
Proof. unfold index. now destruct (l !! i). Qed.

(** The parent index of [rowCount] and [index] is read through its
    validity first. *)
Lemma addressed_cases parent q :
  addressed parent = RObj q ->
  isValid parent = false /\ q = [] \/ isValid parent = true /\ internalPointer parent = RObj q.
Proof.
  unfold addressed. destruct (isValid parent); [right|left]; split; congruence.
Qed.


Lemma PlayRegistry_index_category r c parent q category self :
  addressed parent = RObj q ->
  deref q (inr (_root self)) = Some (inr category) ->
  PlayRegistry_index r c parent self =
  match _children category !! r with
  | Some _ => Some (Returned (createIndex r c (RObj (q ++ [r]))), self)
  | None => Some (Raised IndexError, self)
  end.
Proof.
  intros Ha Hd. pose proof (getattr_children_category _ _ _ Hd) as Hc.
  pose proof (index_lookup (_children category) r self) as Hi.
  unfold PlayRegistry_index.
  destruct (addressed_cases _ _ Ha) as [[-> ->]|[-> ->]]; cbn -[load]; run Hc;
    destruct (_children category !! r); now run Hi.
Qed.

Lemma deref_child q r category child root :
  deref q (inr root) = Some (inr category) ->
  _children category !! r = Some child ->
  deref (q ++ [r]) (inr root) = Some child.
Proof. intros Hd Hr. rewrite deref_app, Hd. simpl. now rewrite Hr. Qed.



Lemma getattr_parent_child q r child self :
  deref (q ++ [r]) (inr (_root self)) = Some child ->
  getattr_parent (RObj (q ++ [r])) self = Some (Returned (RObj q), self).
Proof.
  intros Hd. unfold getattr_parent. pose proof (load_RObj _ _ _ Hd) as Hload. run Hload.
  destruct (q ++ [r]) as [|x l] eqn:E; [now destruct q|].
  rewrite <- E, List.removelast_last. now destruct child.
Qed.

Lemma Category_row_category q category self :
  deref q (inr (_root self)) = Some (inr category) ->
  Category_row (RObj q) self = Some (Returned (default 0 (last q)), self).
Proof.
  intros Hd. unfold Category_row, getattr_parent.
  pose proof (load_RObj _ _ _ Hd) as Hload. rewrite bind_assoc. run Hload.
  now destruct q.
Qed.

(** X10. [parent] undoes [index] up to validity.  The index that [index]
    returns for a row of the root or of a category has as its parent a valid
    index in column 0 that points to that root or category, at the row the
    category has in its own parent (0 for the root); so the parent of a
    top-level row is not the invalid index the root was asked by.  On an
    invalid index [parent] raises [NameError]. *)
Theorem parent_of_index (self : PlayRegistry) (parent : QModelIndex) (r c : nat)
    (q : list nat) (category : Category) (child : Child) :
  addressed parent = RObj q ->
  deref q (inr (_root self)) = Some (inr category) ->
  _children category !! r = Some child ->
  (exists child_index run,
      PlayRegistry_index r c parent self = Some (Returned child_index, self) /\
      PlayRegistry_parent child_index = inr run /\
      run self = Some (Returned (Some (createIndex (default 0 (last q)) 0 (RObj q))), self)) /\
  (isValid parent = false -> PlayRegistry_parent parent = inl (NameError "QModelIndex")).
Proof.
  intros Ha Hd Hr. split.
  - exists (createIndex r c (RObj (q ++ [r]))). eexists. split; [|split; [reflexivity|]].
    + rewrite (PlayRegistry_index_category r c _ _ _ _ Ha Hd), Hr. reflexivity.
    + cbn -[load getattr_parent Category_row].
      pose proof (getattr_parent_child q r child self (deref_child _ _ _ _ _ Hd Hr)) as Hp.
      run Hp. pose proof (Category_row_category q category self Hd) as Hrow. now run Hrow.
  - intros Hv. unfold PlayRegistry_parent. now rewrite Hv.
Qed.

(** The parent of the top-level row of [solo_registry]. *)
Lemma parent_of_index_witness :
  (addressed invalid_index = RObj [] /\
   deref [] (inr (_root solo_registry)) = Some (inr (_root solo_registry)) /\
   _children (_root solo_registry) !! 0
   = Some (inr (mkCategory "solo" [inl (Node___init__ "Kick" Kick)]))) /\
  (exists child_index run,
      PlayRegistry_index 0 0 invalid_index solo_registry
      = Some (Returned child_index, solo_registry) /\
      PlayRegistry_parent child_index = inr run /\
      run solo_registry = Some (Returned (Some (createIndex 0 0 (RObj []))), solo_registry)) /\
  (isValid invalid_index = false ->
   PlayRegistry_parent invalid_index = inl (NameError "QModelIndex")).
Proof.
  split; [repeat split|].
  exact (parent_of_index solo_registry invalid_index 0 0 [] (_root solo_registry) _
           eq_refl eq_refl eq_refl).
Defined.

(** X11. What the view shows for a row: for the index that [index] returns
    for a row of the root or of a category, in column 0, [data] with the
    display role is the name of the child of that row, and with the
    check-state role it is the [enabled] flag of a node and [None] for a
    category. *)
Theorem data_of_index (self : PlayRegistry) (parent : QModelIndex) (r : nat)
    (q : list nat) (category : Category) (child : Child) :
  addressed parent = RObj q ->
  deref q (inr (_root self)) = Some (inr category) ->
  _children category !! r = Some child ->
  exists child_index,
    PlayRegistry_index r 0 parent self = Some (Returned child_index, self) /\
    data child_index DisplayRole self = Some (Returned (VStr (name child)), self) /\
    data child_index CheckStateRole self =
    Some (Returned (match child with
                    | inl node => VBool (_enabled node)
                    | inr _ => VNone
                    end), self).
Proof.
  intros Ha Hd Hr. exists (createIndex r 0 (RObj (q ++ [r]))). split; [|split].
  - rewrite (PlayRegistry_index_category r 0 _ _ _ _ Ha Hd), Hr. reflexivity.
  - pose proof (load_RObj _ _ _ (deref_child _ _ _ _ _ Hd Hr)) as Hload.
    unfold data, getattr_name. cbn -[load]. rewrite bind_assoc. run Hload. now destruct child.
  - pose proof (load_RObj _ _ _ (deref_child _ _ _ _ _ Hd Hr)) as Hload.
    unfold data. cbn -[load]. run Hload. now destruct child.
Qed.

(** The only row of [solo] in [solo_registry] shows [Kick], checked. *)
Lemma data_of_index_witness :
  (addressed solo_index = RObj [0] /\
   deref [0] (inr (_root solo_registry))
   = Some (inr (mkCategory "solo" [inl (Node___init__ "Kick" Kick)])) /\
   [@inl Node Category (Node___init__ "Kick" Kick)] !! 0 = Some (inl (Node___init__ "Kick" Kick))) /\
  exists child_index,
    PlayRegistry_index 0 0 solo_index solo_registry = Some (Returned child_index, solo_registry) /\
    data child_index DisplayRole solo_registry = Some (Returned (VStr "Kick"), solo_registry) /\
    data child_index CheckStateRole solo_registry = Some (Returned (VBool true), solo_registry).
Proof.
  split; [repeat split|].
  exact (data_of_index solo_registry solo_index 0 [0]
           (mkCategory "solo" [inl (Node___init__ "Kick" Kick)])
           (inl (Node___init__ "Kick" Kick)) eq_refl eq_refl eq_refl).
Defined.
